(** * superforms-web: the tag form of the client-validation page and the
      handlers of the "Get started" tutorial

    Sources embedded here:
    - [src/routes/concepts/client-validation/Form.svelte]: the [superForm]
      call with its [validators], the [addTag] handler and the markup;
    - the "Get started" tutorial page: the [load] function, the default form
      action and the [+page.svelte] sample that displays errors.

    Scripts are embedded as functions over an explicit component state; the
    parts of [addTag] that run later (after [await tick()], and the callback
    given to [setTimeout]) are jobs in the queues of that state.  Markup is
    embedded as a function from the state to a list of nodes. *)

From stdpp Require Import base strings list gmap.
From Stdlib Require Import NArith Ascii.

Set Warnings "-register-all".

Local Open Scope string_scope.
Local Open Scope list_scope.

(** ** JavaScript values used by the pages *)

Module Js.

(** A JavaScript string is a sequence of UTF-16 code units, and [length]
    counts code units. *)
Definition code_unit := N.
Definition js_string := list code_unit.

(** A string literal of the source (all of them are ASCII). *)
Definition lit (s : string) : js_string :=
  N_of_ascii <$> String.list_ascii_of_string s.

(** [Boolean(s)] for a string: only the empty string is falsy. *)
Definition truthy (s : js_string) : bool :=
  match s with
  | [] => false
  | _ :: _ => true
  end.

(** [Boolean(v)] for a value that is a string or [undefined]. *)
Definition truthy_opt (v : option js_string) : bool :=
  match v with
  | None => false
  | Some s => truthy s
  end.

(** [String(a)] for an array of strings: [a.join(',')]. *)
Fixpoint join (sep : js_string) (a : list js_string) : js_string :=
  match a with
  | [] => []
  | [s] => s
  | s :: rest => s ++ sep ++ join sep rest
  end.

Definition array_to_string (a : list js_string) : js_string :=
  join (lit ",") a.

(** The two code units of U+1F600, one character to a reader. *)
Definition grinning_face : js_string := [55357%N; 56832%N].

End Js.

Import Js.

(** ** Markup *)

Module Markup.

(** What an event handler of the pages does. *)
Inductive handler :=
| CallAddTag                 (* () => addTag() *)
| FocusRef (ref : string).   (* () => newTagEl.focus() *)

(** The target of a [bind:value]. *)
Inductive lvalue :=
| FormField (field : string)            (* $form.name *)
| FormItem (field : string) (i : nat)   (* $form.tags[i] *)
| Local (name : string).                (* newTag *)

(** A primitive inside an object that is spread on an element. *)
Inductive prim :=
| PBool (b : bool)
| PNum (n : Z)
| PStr (s : js_string).

(** The html validation constraints of one field, as in
    [{ required: true }]. *)
Definition input_constraints := list (string * prim).

Inductive attr :=
| Attr (name : string) (value : js_string)
| BindValue (target : lvalue) (value : js_string)
| BindThis (ref : string)
| Use (action : string)
| On (event : string) (h : handler)
| Spread (obj : option input_constraints).

(** [C] is the type of the child components a page instantiates. *)
Inductive node (C : Type) :=
| Element (tag : string) (attrs : list attr) (children : list (node C))
| Text (s : js_string)
| Child (c : C).

Arguments Element {C} tag attrs children.
Arguments Text {C} s.
Arguments Child {C} c.

(** [name={value}]: the attribute is left out when the value is
    [undefined], and holds [String(value)] otherwise. *)
Definition attr_of (name : string) (value : option (list js_string))
  : list attr :=
  match value with
  | None => []
  | Some a => [Attr name (array_to_string a)]
  end.

Definition attr_name (a : attr) : option string :=
  match a with
  | Attr name _ => Some name
  | _ => None
  end.

Definition has_attr (name : string) (attrs : list attr) : bool :=
  existsb (fun a => bool_decide (attr_name a = Some name)) attrs.

(** The node is an [input] element carrying [data-invalid]. *)
Definition marked_invalid {C} (n : node C) : bool :=
  match n with
  | Element tag attrs _ => bool_decide (tag = "input") && has_attr "data-invalid" attrs
  | _ => false
  end.

(** The texts directly inside an element. *)
Definition texts {C} (children : list (node C)) : list js_string :=
  omap (fun n => match n with Text s => Some s | _ => None end) children.

(** The error texts a node shows: the texts of a [span]. *)
Definition error_text {C} (n : node C) : list js_string :=
  match n with
  | Element tag _ children => if bool_decide (tag = "span") then texts children else []
  | _ => []
  end.

End Markup.

Import Markup.

(** ** What [superForm] returns *)

(** The properties the pages take from the object [superForm] returns. *)
Inductive superform_prop :=
| P_form
| P_errors
| P_enhance
| P_message
| P_constraints.

#[global] Instance superform_prop_eq_dec : EqDecision superform_prop.
Proof. solve_decision. Defined.

(** [enhance] is an action (used as [use:enhance]); the others are stores,
    read in the markup with a [$] prefix. *)
Definition is_store (p : superform_prop) : bool :=
  match p with
  | P_enhance => false
  | _ => true
  end.

(** ** routes/concepts/client-validation/Form.svelte *)

Module ClientValidation.

(** [$form]: the data of the form, with its list of tags. *)
Record form_data := { tags : list js_string }.

(** [$errors]: [tags] is absent or maps an index to the errors of that
    tag. *)
Record form_errors := { tags_errors : option (gmap nat (list js_string)) }.

(** [$page]: only [url.pathname] is read. *)
Record page_store := { pathname : js_string }.

(** The part of [addTag] after [await tick()]. *)
Inductive continuation :=
| AddTagAfterTick.

(** The callback given to [setTimeout]: [() => (newTag = '')]. *)
Inductive timer_callback :=
| ResetNewTag.

Record state := {
  form : form_data;
  errors : form_errors;
  message : option js_string;
  constraints : gmap string input_constraints;
  page : page_store;
  newTag : js_string;
  (* jobs waiting for the current script to end, oldest first *)
  microtasks : list continuation;
  (* callbacks of setTimeout with their delay, oldest first *)
  timers : list (nat * timer_callback)
}.

Definition with_form (v : form_data) (st : state) : state :=
  {| form := v; errors := errors st; message := message st;
     constraints := constraints st; page := page st; newTag := newTag st;
     microtasks := microtasks st; timers := timers st |}.

Definition with_errors (v : form_errors) (st : state) : state :=
  {| form := form st; errors := v; message := message st;
     constraints := constraints st; page := page st; newTag := newTag st;
     microtasks := microtasks st; timers := timers st |}.

Definition with_message (v : option js_string) (st : state) : state :=
  {| form := form st; errors := errors st; message := v;
     constraints := constraints st; page := page st; newTag := newTag st;
     microtasks := microtasks st; timers := timers st |}.

Definition with_constraints (v : gmap string input_constraints) (st : state)
  : state :=
  {| form := form st; errors := errors st; message := message st;
     constraints := v; page := page st; newTag := newTag st;
     microtasks := microtasks st; timers := timers st |}.

Definition with_newTag (v : js_string) (st : state) : state :=
  {| form := form st; errors := errors st; message := message st;
     constraints := constraints st; page := page st; newTag := v;
     microtasks := microtasks st; timers := timers st |}.

Definition with_microtasks (v : list continuation) (st : state) : state :=
  {| form := form st; errors := errors st; message := message st;
     constraints := constraints st; page := page st; newTag := newTag st;
     microtasks := v; timers := timers st |}.

Definition with_timers (v : list (nat * timer_callback)) (st : state)
  : state :=
  {| form := form st; errors := errors st; message := message st;
     constraints := constraints st; page := page st; newTag := newTag st;
     microtasks := microtasks st; timers := v |}.

(** *** The script *)

(** The names in [const { ... } = superForm(data.form, ...)]. *)
Definition destructured : list superform_prop :=
  [P_form; P_errors; P_enhance; P_message; P_constraints].

(** The [validators] option: one entry, for [tags]. *)
Definition validators : gmap string (js_string -> option js_string) :=
  {[ "tags" :=
       fun tag =>
         if (length tag <? 2)%nat
         then Some (lit "Tag must be at least 2 characters")
         else None ]}.

Definition defaultValidator : js_string := lit "clear".

(** [await tick()]: the rest of the function runs as a microtask. *)
Definition await_tick (k : continuation) (st : state) : state :=
  with_microtasks (microtasks st ++ [k]) st.

Definition setTimeout (cb : timer_callback) (delay : nat) (st : state)
  : state :=
  with_timers (timers st ++ [(delay, cb)]) st.

(** A call of [addTag], up to its [await]. *)
Definition addTag (st : state) : state :=
  if negb (truthy (newTag st)) then st
  else
    let st := with_form {| tags := tags (form st) ++ [newTag st] |} st in
    await_tick AddTagAfterTick st.

Definition resume (k : continuation) (st : state) : state :=
  match k with
  | AddTagAfterTick => setTimeout ResetNewTag 1 st
  end.

Definition fire (cb : timer_callback) (st : state) : state :=
  match cb with
  | ResetNewTag => with_newTag (lit "") st
  end.

(** *** The event loop *)

Inductive event :=
| Invoke      (* the change handler calls addTag() *)
| Microtask   (* the oldest microtask runs *)
| Timer.      (* the oldest timer fires (all delays are equal) *)

#[global] Instance event_eq_dec : EqDecision event.
Proof. solve_decision. Defined.

Definition step (e : event) (st : state) : state :=
  match e with
  | Invoke => addTag st
  | Microtask =>
      match microtasks st with
      | [] => st
      | k :: rest => resume k (with_microtasks rest st)
      end
  | Timer =>
      match timers st with
      | [] => st
      | (_, cb) :: rest => fire cb (with_timers rest st)
      end
  end.

Definition run (sched : list event) (st : state) : state :=
  foldl (fun st e => step e st) st sched.

(** Everything that is pending runs: the microtasks, then the timers. *)
Definition settle (st : state) : state :=
  let st := run (replicate (length (microtasks st)) Microtask) st in
  run (replicate (length (timers st)) Timer) st.

(** *** The markup *)

(** [<Debug open={true} data={$form} />] *)
Record debug_props := { open : bool; data : form_data }.

(** [$errors.tags?.[i]] *)
Definition errors_at (e : form_errors) (i : nat) : option (list js_string) :=
  match tags_errors e with
  | None => None
  | Some m => m !! i
  end.

(** The body of [{#each $form.tags as _, i}]. *)
Definition tag_block (e : form_errors) (i : nat) (tag : js_string)
  : list (node debug_props) :=
  Element "input"
    ([Attr "class" (lit "input"); Attr "type" (lit "text");
      Attr "name" (lit "tags"); BindValue (FormItem "tags" i) tag]
     ++ attr_of "data-invalid" (errors_at e i)) []
  :: match errors_at e i with
     | Some err =>
         [Element "span" [Attr "class" (lit "text-red-500")]
            [Text (array_to_string err)]]
     | None => []
     end.

Definition tag_blocks (st : state) : list (list (node debug_props)) :=
  imap (tag_block (errors st)) (tags (form st)).

Definition render (st : state) : list (node debug_props) :=
  [ Child {| open := true; data := form st |};
    Element "form"
      [Attr "method" (lit "POST"); Attr "action" (pathname (page st));
       Attr "class"
         (lit "p-5 border-dashed bg-slate-900 border-2 border-primary-900 rounded-xl space-y-4");
       Use "enhance"]
      ((if truthy_opt (message st)
        then [Element "h3" [Attr "class" (lit "rounded p-2 bg-green-700")]
                [Text (default [] (message st))]]
        else [])
       ++ [Element "label" [Attr "for" (lit "tags"); Attr "class" (lit "label")]
             [Element "span" [] [Text (lit "Tags")]]]
       ++ mjoin (tag_blocks st)
       ++ [Element "input"
             [Attr "class" (lit "input"); Attr "type" (lit "text");
              Attr "placeholder" (lit "Add new tag...");
              BindValue (Local "newTag") (newTag st);
              BindThis "newTagEl"; On "change" CallAddTag] []]
       ++ (if truthy (newTag st)
           then [Element "input"
                   [Attr "class" (lit "input"); Attr "type" (lit "text");
                    Attr "placeholder" (lit "Add new tag...");
                    On "focus" (FocusRef "newTagEl")] []]
           else [])
       ++ [Element "div" []
             [Element "button"
                [Attr "type" (lit "submit"); Attr "class" (lit "btn variant-filled")]
                [Text (lit "Submit")]]]) ].

End ClientValidation.

(** ** The "Get started" tutorial: the form with a name and an e-mail *)

Module Superforms.

(** The data of the tutorial's form. *)
Record form_data := { name : js_string; email : js_string }.

(** [errors]: a field is absent or holds its error messages, as in
    [errors: { email: [ 'Invalid email' ] }]. *)
Record form_errors := {
  errors_name : option (list js_string);
  errors_email : option (list js_string)
}.

(** [constraints]: a field is absent or holds its html constraints. *)
Record form_constraints := {
  constraints_name : option input_constraints;
  constraints_email : option input_constraints
}.

(** The validation object [superValidate] returns. *)
Record Validation := {
  valid : bool;
  errors : form_errors;
  data : form_data;
  empty : bool;
  message : option js_string;
  constraints : form_constraints
}.

(** A Zod schema, as far as the tutorial builds one. *)
Inductive zod :=
| z_string
| z_default (inner : zod) (value : js_string)
| z_email (inner : zod)
| z_object (shape : list (string * zod)).

Definition schema : zod :=
  z_object [("name", z_default z_string (lit "Hello world!"));
            ("email", z_email z_string)].

(** The validation object the tutorial prints after the first POST. *)
Definition posted : Validation :=
  {| valid := false;
     errors := {| errors_name := None;
                  errors_email := Some [lit "Invalid email"] |};
     data := {| name := lit "Hello world!"; email := lit "" |};
     empty := false;
     message := None;
     constraints := {| constraints_name := Some [("required", PBool true)];
                       constraints_email := Some [("required", PBool true)] |} |}.

(** The same form once a valid e-mail was posted. *)
Definition accepted : Validation :=
  {| valid := true;
     errors := {| errors_name := None; errors_email := None |};
     data := {| name := lit "Hello world!"; email := lit "a@b.se" |};
     empty := false;
     message := None;
     constraints := constraints posted |}.

End Superforms.

(** *** src/routes/+page.server.ts *)

Module PageServer.

Import Superforms.

(** How a promise settles. *)
Inductive settled (E A : Type) :=
| Fulfilled (a : A)
| Rejected (reason : E).

Arguments Fulfilled {E A} a.
Arguments Rejected {E A} reason.

(** [{ form }] *)
Record page_data := { form : Validation }.

(** What a handler returns: a plain object, or what [fail] builds. *)
Inductive handler_return :=
| Plain (d : page_data)
| ActionFailure (status : nat) (d : page_data).

Definition fail (status : nat) (d : page_data) : handler_return :=
  ActionFailure status d.

(** The arguments of one [console.log] call. *)
Definition log_entry : Type := js_string * Validation.

(** An async function of the server: it writes to the console and settles. *)
Definition async (E A : Type) : Type :=
  list log_entry -> list log_entry * settled E A.

#[global] Instance async_ret {E} : MRet (async E) :=
  fun A a out => (out, Fulfilled a).

#[global] Instance async_bind {E} : MBind (async E) :=
  fun A B k m out =>
    match m out with
    | (out', Fulfilled a) => k a out'
    | (out', Rejected e) => (out', Rejected e)
    end.

(** [await p] for a promise that has settled as [p]. *)
Definition await {E A} (p : settled E A) : async E A :=
  fun out => (out, p).

Definition console_log {E} (label : js_string) (v : Validation) : async E unit :=
  fun out => (out ++ [(label, v)], Fulfilled tt).

Section Handlers.

Context {RequestEvent E : Type}.

(** The server API of the library. *)
Variable superValidate : RequestEvent -> zod -> settled E Validation.

Definition load (event : RequestEvent) : async E handler_return :=
  form ← await (superValidate event schema);
  mret (Plain {| form := form |}).

Definition actions_default (event : RequestEvent) : async E handler_return :=
  form ← await (superValidate event schema);
  _ ← console_log (lit "POST") form;
  if negb (valid form)
  then mret (fail 400 {| form := form |})
  else mret (Plain {| form := form |}).

End Handlers.

(** Two instances of the server API: one that answers every request with the
    given validation object, and one whose promise is rejected. *)
Definition answering (v : Validation) : unit -> zod -> settled string Validation :=
  fun _ _ => Fulfilled v.

Definition rejecting (reason : string) : unit -> zod -> settled string Validation :=
  fun _ _ => Rejected reason.

End PageServer.

(** *** src/routes/+page.svelte, the sample that displays errors *)

Module PageSvelte.

Import Superforms.

(** The names in [const { form, errors, constraints } = superForm(data.form)]. *)
Definition destructured : list superform_prop :=
  [P_form; P_errors; P_constraints].

(** The values of the three stores. *)
Record state := {
  form : form_data;
  errors : form_errors;
  constraints : form_constraints
}.

(** [{#if e}<span class="invalid">{e}</span>{/if}] *)
Definition invalid_span (e : option (list js_string)) : list (node Empty_set) :=
  match e with
  | Some err => [Element "span" [Attr "class" (lit "invalid")] [Text (array_to_string err)]]
  | None => []
  end.

Definition render (st : state) : list (node Empty_set) :=
  [ Element "form" [Attr "method" (lit "POST")]
      ([Element "label" [Attr "for" (lit "name")] [Text (lit "Name")];
        Element "input"
          ([Attr "type" (lit "text"); Attr "name" (lit "name")]
           ++ attr_of "data-invalid" (errors_name (errors st))
           ++ [BindValue (FormField "name") (name (form st));
               Spread (constraints_name (constraints st))]) []]
       ++ invalid_span (errors_name (errors st))
       ++ [Element "label" [Attr "for" (lit "email")] [Text (lit "E-mail")];
           Element "input"
             ([Attr "type" (lit "email"); Attr "name" (lit "email")]
              ++ attr_of "data-invalid" (errors_email (errors st))
              ++ [BindValue (FormField "email") (email (form st));
                  Spread (constraints_email (constraints st))]) []]
       ++ invalid_span (errors_email (errors st))
       ++ [Element "div" [] [Element "button" [] [Text (lit "Submit")]]]) ].

End PageSvelte.

(** ** States of the tag form used in examples *)

Module Samples.

Import ClientValidation.

(** Nothing pending, no error, no message: the user has typed [typed_tag]
    in the last input and the form holds [ts]. *)
Definition typed (typed_tag : js_string) (ts : list js_string) : state :=
  {| form := {| tags := ts |};
     errors := {| tags_errors := None |};
     message := None;
     constraints := ∅;
     page := {| pathname := lit "/concepts/client-validation" |};
     newTag := typed_tag;
     microtasks := [];
     timers := [] |}.

(** The tag at index 1 is too short and the validator has said so. *)
Definition one_error : state :=
  with_errors
    {| tags_errors := Some {[ 1%nat := [lit "Tag must be at least 2 characters"] ]} |}
    (typed (lit "") [lit "ab"; lit "c"; lit "de"]).

(** The stores of the tutorial's page after the first POST. *)
Definition posted_stores : PageSvelte.state :=
  {| PageSvelte.form := Superforms.data Superforms.posted;
     PageSvelte.errors := Superforms.errors Superforms.posted;
     PageSvelte.constraints := Superforms.constraints Superforms.posted |}.

End Samples.

(** ** The spec's words about [addTag], to compare with the code *)

Module Debounce.

Import ClientValidation.

(** How many times the schedule calls [addTag]. *)
Definition invocations (sched : list event) : nat :=
  length (filter (fun e => e = Invoke) sched).

(** The invocations are rapid: no timer fires before the schedule ends. *)
Definition rapid (sched : list event) : Prop := Timer ∉ sched.

(** "Delayed": the tags are as before while the invocations arrive.
    "Coalesced": once everything pending has run, the invocations together
    have added one tag at most. *)
Definition debounced_on (st : state) (sched : list event) : Prop :=
  tags (form (run sched st)) = tags (form st)
  ∧ (length (tags (form (settle (run sched st)))) ≤ S (length (tags (form st))))%nat.

Definition debounced : Prop :=
  ∀ st sched, rapid sched → debounced_on st sched.

End Debounce.

(** ** The spec's words about the reset of [newTag], to compare with the code *)

Module ResetTiming.

Import ClientValidation.

(** "After addTag runs and its deferred continuation executes, newTag is
    reset to the empty string": the call, then the continuation of
    [await tick()]. *)
Definition reset_by_continuation (st : state) : Prop :=
  newTag (step Microtask (step Invoke st)) = lit "".

End ResetTiming.

(** ** The display contract *)

Module Display.

(** The two client components of the repository. *)
Inductive component :=
| FormSvelte      (* routes/concepts/client-validation/Form.svelte *)
| PageSample.     (* the +page.svelte sample of the tutorial *)

(** The properties the contract names. *)
Definition contract : list superform_prop :=
  [P_form; P_errors; P_constraints; P_message].

(** What a component takes from [superForm]. *)
Definition obtained (c : component) : list superform_prop :=
  match c with
  | FormSvelte => ClientValidation.destructured
  | PageSample => PageSvelte.destructured
  end.

(** The markup of a component binds a store when the nodes it renders
    change with the value of the store.  A property that is not a store of
    the component is not bound. *)
Definition bound (c : component) (p : superform_prop) : Prop :=
  match c, p with
  | FormSvelte, P_form =>
      ∃ st v, ClientValidation.render (ClientValidation.with_form v st)
              ≠ ClientValidation.render st
  | FormSvelte, P_errors =>
      ∃ st v, ClientValidation.render (ClientValidation.with_errors v st)
              ≠ ClientValidation.render st
  | FormSvelte, P_message =>
      ∃ st v, ClientValidation.render (ClientValidation.with_message v st)
              ≠ ClientValidation.render st
  | FormSvelte, P_constraints =>
      ∃ st v, ClientValidation.render (ClientValidation.with_constraints v st)
              ≠ ClientValidation.render st
  | PageSample, P_form =>
      ∃ st v, PageSvelte.render
                {| PageSvelte.form := v;
                   PageSvelte.errors := PageSvelte.errors st;
                   PageSvelte.constraints := PageSvelte.constraints st |}
              ≠ PageSvelte.render st
  | PageSample, P_errors =>
      ∃ st v, PageSvelte.render
                {| PageSvelte.form := PageSvelte.form st;
                   PageSvelte.errors := v;
                   PageSvelte.constraints := PageSvelte.constraints st |}
              ≠ PageSvelte.render st
  | PageSample, P_constraints =>
      ∃ st v, PageSvelte.render
                {| PageSvelte.form := PageSvelte.form st;
                   PageSvelte.errors := PageSvelte.errors st;
                   PageSvelte.constraints := v |}
              ≠ PageSvelte.render st
  | PageSample, P_message => False
  | _, P_enhance => False
  end.

(** The contract as the spec words it: the client components obtain the four
    properties and bind each of them, and obtain no other store. *)
Definition as_stated : Prop :=
  (∀ c p, p ∈ contract → p ∈ obtained c ∧ bound c p)
  ∧ (∀ c p, p ∈ obtained c → is_store p = true → p ∈ contract).

End Display.

(** ** Reading the rendered markup *)

Module Query.

Definition is_input {C} (n : node C) : bool :=
  match n with
  | Element tag _ _ => bool_decide (tag = "input")
  | _ => false
  end.

(** The two-way bindings of a node: the target and the value shown. *)
Definition bindings {C} (n : node C) : list (lvalue * js_string) :=
  match n with
  | Element _ attrs _ =>
      omap (fun a => match a with
                     | BindValue target value => Some (target, value)
                     | _ => None
                     end) attrs
  | _ => []
  end.

(** The nodes inside the [form] elements of a page. *)
Definition form_children {C} (nodes : list (node C)) : list (node C) :=
  nodes ≫= (fun n => match n with
                     | Element tag _ children =>
                         if bool_decide (tag = "form") then children else []
                     | _ => []
                     end).

(** The two-way bindings of a node and of everything inside it, in the
    order of the markup.  What a child component renders is its own. *)
Fixpoint deep_bindings {C} (n : node C) : list (lvalue * js_string) :=
  match n with
  | Element _ _ children => bindings n ++ (children ≫= deep_bindings)
  | _ => []
  end.

End Query.

(** ** What the user does to the tag form *)

Module Interaction.

Import ClientValidation.

(** How many jobs the page still has to run. *)
Definition pending (st : state) : nat :=
  (length (microtasks st) + length (timers st))%nat.

(** The [input] event of the element with [bind:value={newTag}]: the value
    typed is assigned to [newTag].  The function is defined for that target
    only and is [None] for every other one: the inputs of the tags write to
    [$form], the store of [superForm], and what that store does on a write
    (its validation, the clearing of errors) is the library's. *)
Definition input_event (target : lvalue) (value : js_string) (st : state)
  : option state :=
  match target with
  | Local name =>
      if decide (name = "newTag") then Some (with_newTag value st) else None
  | _ => None
  end.

End Interaction.

(** * Properties *)

(** ** The script of Form.svelte *)

Section AddTag.

Import ClientValidation Debounce.

Implicit Types (st : state) (sched : list event) (e : event).

Lemma truthy_nonempty (s : js_string) : truthy s = true ↔ s ≠ lit "".
Proof. change (lit "") with (@nil code_unit). destruct s; simpl; split; congruence. Qed.

Lemma addTag_tags st :
  tags (form (addTag st))
  = tags (form st) ++ (if truthy (newTag st) then [newTag st] else []).
Proof.
  unfold addTag. destruct (truthy (newTag st)); simpl; [done|].
  by rewrite app_nil_r.
Qed.

Lemma addTag_newTag st : newTag (addTag st) = newTag st.
Proof. unfold addTag. by destruct (truthy (newTag st)). Qed.

(** Only a call of [addTag] touches the tags. *)
Lemma step_tags e st :
  tags (form (step e st))
  = tags (form st)
    ++ (if decide (e = Invoke)
        then if truthy (newTag st) then [newTag st] else []
        else []).
Proof.
  destruct e; simpl.
  - apply addTag_tags.
  - rewrite app_nil_r. by destruct (microtasks st) as [|[] ?].
  - rewrite app_nil_r. by destruct (timers st) as [|[? []] ?].
Qed.

(** Only a timer touches [newTag]. *)
Lemma step_newTag e st : e ≠ Timer → newTag (step e st) = newTag st.
Proof.
  destruct e; simpl; intros He.
  - apply addTag_newTag.
  - by destruct (microtasks st) as [|[] ?].
  - done.
Qed.

Lemma run_cons e sched st : run (e :: sched) st = run sched (step e st).
Proof. done. Qed.

Lemma run_app sched1 sched2 st :
  run (sched1 ++ sched2) st = run sched2 (run sched1 st).
Proof. apply foldl_app. Qed.

Lemma invocations_cons e sched :
  invocations (e :: sched)
  = ((if decide (e = Invoke) then 1 else 0) + invocations sched)%nat.
Proof.
  unfold invocations. rewrite filter_cons. by destruct (decide (e = Invoke)).
Qed.

Lemma run_rapid sched : ∀ st,
  rapid sched →
  newTag (run sched st) = newTag st
  ∧ tags (form (run sched st))
    = tags (form st)
      ++ (if truthy (newTag st)
          then replicate (invocations sched) (newTag st) else []).
Proof.
  unfold rapid. induction sched as [|e sched IH]; intros st Hr.
  - simpl. by destruct (truthy (newTag st)); rewrite app_nil_r.
  - apply not_elem_of_cons in Hr as [He Hr].
    rewrite run_cons. destruct (IH (step e st) Hr) as [-> ->].
    rewrite step_newTag by done. split; [done|].
    rewrite step_tags, invocations_cons, <- (assoc_L (++)).
    f_equal. destruct (decide (e = Invoke)), (truthy (newTag st)); done.
Qed.

Lemma run_tags_prefix sched : ∀ st,
  tags (form st) `prefix_of` tags (form (run sched st)).
Proof.
  induction sched as [|e sched IH]; intros st; [done|].
  rewrite run_cons. etrans; [|apply IH].
  rewrite step_tags. by apply prefix_app_r.
Qed.

Lemma run_no_invoke sched : ∀ st,
  Invoke ∉ sched → tags (form (run sched st)) = tags (form st).
Proof.
  induction sched as [|e sched IH]; intros st Hn; [done|].
  apply not_elem_of_cons in Hn as [He Hn].
  rewrite run_cons, IH, step_tags by done.
  destruct (decide (e = Invoke)); [congruence|]. by rewrite app_nil_r.
Qed.

Lemma settle_tags st : tags (form (settle st)) = tags (form st).
Proof.
  unfold settle. rewrite !run_no_invoke; [done| |].
  - by intros ?%elem_of_replicate_inv.
  - by intros ?%elem_of_replicate_inv.
Qed.

End AddTag.

Section TagForm.

Import ClientValidation Debounce Samples.

Implicit Types (st : state) (sched : list event) (tag : js_string).

(** C2: the [validators] option has one callback, for [tags]; it returns
    'Tag must be at least 2 characters' exactly for the strings of length
    below 2, and null exactly for those of length 2 or more. *)
Theorem validators_tags_only :
  ∃ f, validators = {[ "tags" := f ]}
       ∧ ∀ tag,
           (f tag = Some (lit "Tag must be at least 2 characters")
            ↔ (length tag < 2)%nat)
           ∧ (f tag = None ↔ (2 ≤ length tag)%nat).
Proof.
  eexists. split; [reflexivity|]. intros tag. simpl.
  destruct (Nat.ltb_spec (length tag) 2); split; split;
    first [done | lia | discriminate].
Qed.

(** The length is counted in UTF-16 code units: a single character outside
    the basic plane is long enough. *)
Example validators_tags_surrogate_pair :
  (validators !! "tags") ≫= (fun f => f grinning_face) = None
  ∧ (validators !! "tags") ≫= (fun f => f (lit "a"))
    = Some (lit "Tag must be at least 2 characters").
Proof. by vm_compute. Qed.

(** C7: a call of [addTag] with a non-empty [newTag] appends that one value
    at the end of [$form.tags]: the tags already present keep their value
    and position, the length grows by one, and what the call leaves pending
    does not touch the list. *)
Theorem addTag_appends st :
  newTag st ≠ lit "" →
  tags (form (addTag st)) = tags (form st) ++ [newTag st]
  ∧ length (tags (form (addTag st))) = S (length (tags (form st)))
  ∧ (∀ i tag, tags (form st) !! i = Some tag →
              tags (form (addTag st)) !! i = Some tag)
  ∧ tags (form (addTag st)) !! length (tags (form st)) = Some (newTag st)
  ∧ tags (form (settle (addTag st))) = tags (form st) ++ [newTag st].
Proof.
  intros Hne%truthy_nonempty.
  assert (Htags : tags (form (addTag st)) = tags (form st) ++ [newTag st])
    by (by rewrite addTag_tags, Hne).
  rewrite settle_tags, Htags. split_and!; [done| | | |done].
  - rewrite length_app. simpl. lia.
  - intros i tag Hi. by apply lookup_app_l_Some.
  - by rewrite lookup_app_r, Nat.sub_diag.
Qed.

Lemma addTag_appends_witness :
  let st := typed (lit "cd") [lit "ab"] in
  newTag st ≠ lit ""
  ∧ tags (form (addTag st)) = [lit "ab"; lit "cd"]
  ∧ length (tags (form (addTag st))) = 2%nat.
Proof.
  intros st.
  assert (Hne : newTag st ≠ lit "") by discriminate.
  split; [exact Hne|].
  destruct (addTag_appends st Hne) as (Htags & Hlen & _).
  split; [exact Htags | exact Hlen].
Defined.

(** C8: a call of [addTag] while [newTag] is the empty string returns at
    once: [$form.tags], [newTag] and the rest of the state are unchanged,
    and nothing is left pending. *)
Theorem addTag_empty st :
  newTag st = lit "" → addTag st = st.
Proof. intros Hempty. unfold addTag. by rewrite Hempty. Qed.

Lemma addTag_empty_witness :
  let st := typed (lit "") [lit "ab"] in
  newTag st = lit "" ∧ addTag st = st.
Proof.
  intros st. split; [reflexivity|]. apply (addTag_empty st). reflexivity.
Defined.

(** C3, as the spec words it, fails: two calls in a row, with "ab" typed
    and no tag yet, leave ["ab"; "ab"] in [$form.tags] before anything
    pending has run. *)
Lemma addTag_not_debounced :
  let st := typed (lit "ab") [] in
  rapid [Invoke; Invoke]
  ∧ tags (form (run [Invoke; Invoke] st)) = [lit "ab"; lit "ab"]
  ∧ tags (form (settle (run [Invoke; Invoke] st))) = [lit "ab"; lit "ab"]
  ∧ ¬ debounced_on st [Invoke; Invoke]
  ∧ ¬ debounced.
Proof.
  intros st.
  assert (Hr : rapid [Invoke; Invoke]).
  { unfold rapid. rewrite !not_elem_of_cons.
    split_and!; [discriminate..|apply not_elem_of_nil]. }
  assert (Hn : ¬ debounced_on st [Invoke; Invoke]).
  { intros [Hdelayed _]. vm_compute in Hdelayed. discriminate. }
  split_and!; [done|reflexivity|reflexivity|done|].
  intros Hd. apply Hn, Hd, Hr.
Qed.

End TagForm.

(** ** The markup of Form.svelte *)

Section TagErrors.

Import ClientValidation Samples.

Implicit Types (st : state) (tag : js_string).


Lemma tag_blocks_length st : length (tag_blocks st) = length (tags (form st)).
Proof. unfold tag_blocks. apply length_imap. Qed.



(** An index without an error: the block is the input alone. *)
Example errors_surfaced_no_error :
  tag_blocks one_error !! 0%nat
  = Some [Element "input"
            [Attr "class" (lit "input"); Attr "type" (lit "text");
             Attr "name" (lit "tags");
             BindValue (FormItem "tags" 0) (lit "ab")] []].
Proof. by vm_compute. Qed.

(** The blocks of the state with one error: only the tag at index 1 is
    marked and carries the text. *)
Example one_error_blocks :
  (fun block => (existsb marked_invalid block, block ≫= error_text))
    <$> tag_blocks one_error
  = [(false, []);
     (true, [lit "Tag must be at least 2 characters"]);
     (false, [])].
Proof. by vm_compute. Qed.

End TagErrors.

(** ** The display contract *)

Section DisplayContract.

Import Display Samples.

Ltac list_membership :=
  repeat match goal with H : _ ∈ _ |- _ => revert H end;
  cbv [contract obtained ClientValidation.destructured PageSvelte.destructured];
  rewrite ?elem_of_cons, ?elem_of_nil; intuition (try discriminate; try done).

Lemma form_svelte_binds_form : bound FormSvelte P_form.
Proof.
  exists (typed (lit "") []), {| ClientValidation.tags := [lit "ab"] |}.
  intros Heq. vm_compute in Heq. discriminate.
Qed.

Lemma form_svelte_binds_errors : bound FormSvelte P_errors.
Proof.
  exists (typed (lit "") [lit "c"; lit "ab"]), (ClientValidation.errors one_error).
  intros Heq. vm_compute in Heq. discriminate.
Qed.

Lemma form_svelte_binds_message : bound FormSvelte P_message.
Proof.
  exists (typed (lit "") []), (Some (lit "Form posted successfully!")).
  intros Heq. vm_compute in Heq. discriminate.
Qed.

(** The markup of Form.svelte never reads [$constraints]. *)
Lemma form_svelte_ignores_constraints st v :
  ClientValidation.render (ClientValidation.with_constraints v st)
  = ClientValidation.render st.
Proof. reflexivity. Qed.

Lemma form_svelte_constraints_unbound : ¬ bound FormSvelte P_constraints.
Proof. intros (st & v & Hne). apply Hne, form_svelte_ignores_constraints. Qed.

Lemma page_sample_binds_form : bound PageSample P_form.
Proof.
  exists posted_stores, (Superforms.data Superforms.accepted).
  intros Heq. vm_compute in Heq. discriminate.
Qed.

Lemma page_sample_binds_errors : bound PageSample P_errors.
Proof.
  exists posted_stores, (Superforms.errors Superforms.accepted).
  intros Heq. vm_compute in Heq. discriminate.
Qed.

Lemma page_sample_binds_constraints : bound PageSample P_constraints.
Proof.
  exists posted_stores,
    {| Superforms.constraints_name := None; Superforms.constraints_email := None |}.
  intros Heq. vm_compute in Heq. discriminate.
Qed.

Lemma bound_form_svelte p :
  bound FormSvelte p ↔ p ∈ [P_form; P_errors; P_message].
Proof.
  destruct p; split; intros H; try (by list_membership).
  - apply form_svelte_binds_form.
  - apply form_svelte_binds_errors.
  - apply form_svelte_binds_message.
  - by apply form_svelte_constraints_unbound in H.
Qed.

Lemma bound_page_sample p :
  bound PageSample p ↔ p ∈ [P_form; P_errors; P_constraints].
Proof.
  destruct p; split; intros H; try (by list_membership).
  - apply page_sample_binds_form.
  - apply page_sample_binds_errors.
  - apply page_sample_binds_constraints.
Qed.

(** C4, as the code has it: the two client components together bind the
    four stores [form], [errors], [constraints] and [message], and take no
    other store from [superForm].  Form.svelte takes the four (and the
    [enhance] action) and binds [form], [errors] and [message] in its
    markup; the tutorial's sample takes and binds [form], [errors] and
    [constraints]. *)
Theorem display_contract :
  obtained FormSvelte = [P_form; P_errors; P_enhance; P_message; P_constraints]
  ∧ obtained PageSample = [P_form; P_errors; P_constraints]
  ∧ (∀ p, bound FormSvelte p ↔ p ∈ [P_form; P_errors; P_message])
  ∧ (∀ p, bound PageSample p ↔ p ∈ [P_form; P_errors; P_constraints])
  ∧ (∀ p, p ∈ contract ↔ ∃ c, p ∈ obtained c ∧ bound c p)
  ∧ (∀ c p, p ∈ obtained c ∧ is_store p = true ↔ p ∈ contract ∧ p ∈ obtained c).
Proof.
  split_and!; [done | done | apply bound_form_svelte | apply bound_page_sample | |].
  - intros p. split.
    + intros Hp. destruct p.
      * exists FormSvelte. split; [by list_membership | apply form_svelte_binds_form].
      * exists FormSvelte. split; [by list_membership | apply form_svelte_binds_errors].
      * exfalso. revert Hp. unfold contract. by list_membership.
      * exists FormSvelte. split; [by list_membership | apply form_svelte_binds_message].
      * exists PageSample. split; [by list_membership | apply page_sample_binds_constraints].
    + intros ([] & _ & Hb).
      * apply bound_form_svelte in Hb. revert Hb. unfold contract.
        by list_membership.
      * apply bound_page_sample in Hb. revert Hb. unfold contract.
        by list_membership.
  - intros c p. unfold contract. destruct p; simpl; by list_membership.
Qed.

(** C4, as the spec words it, fails: Form.svelte takes [constraints] from
    [superForm] and its markup never binds it, and the sample does not take
    [message]. *)
Lemma display_contract_not_per_component :
  P_constraints ∈ obtained FormSvelte
  ∧ ¬ bound FormSvelte P_constraints
  ∧ (P_message ∉ obtained PageSample)
  ∧ ¬ as_stated.
Proof.
  split_and!.
  - simpl. unfold ClientValidation.destructured. by list_membership.
  - apply form_svelte_constraints_unbound.
  - simpl. unfold PageSvelte.destructured. by list_membership.
  - intros [Heach _].
    destruct (Heach FormSvelte P_constraints) as [_ Hb].
    + unfold contract. by list_membership.
    + by apply form_svelte_constraints_unbound in Hb.
Qed.

End DisplayContract.

(** ** The handlers of +page.server.ts *)

Section Server.

Import Superforms PageServer.

Context {RequestEvent E : Type}.
Variable superValidate : RequestEvent → zod → settled E Validation.

Implicit Types (event : RequestEvent) (out : list log_entry) (v : Validation).

(** A rejected [superValidate] rejects both handlers, with nothing logged. *)
Lemma handlers_rejected event out reason :
  superValidate event schema = Rejected reason →
  load superValidate event out = (out, Rejected reason)
  ∧ actions_default superValidate event out = (out, Rejected reason).
Proof.
  intros Hrej. unfold load, actions_default, mbind, async_bind, await.
  by rewrite Hrej.
Qed.

(** C1: when the validation object that [superValidate] returns has
    [valid] false, the default action returns [fail(400, { form })];
    otherwise it returns [{ form }]; it returns nothing else.  Either way
    it has logged the object first. *)
Theorem actions_default_outcomes event out v :
  superValidate event schema = Fulfilled v →
  (valid v = false →
   actions_default superValidate event out
   = (out ++ [(lit "POST", v)],
      Fulfilled (ActionFailure 400 {| form := v |})))
  ∧ (valid v = true →
     actions_default superValidate event out
     = (out ++ [(lit "POST", v)], Fulfilled (Plain {| form := v |})))
  ∧ (∀ out' r,
       actions_default superValidate event out = (out', Fulfilled r) →
       r = ActionFailure 400 {| form := v |} ∧ valid v = false
       ∨ r = Plain {| form := v |} ∧ valid v = true).
Proof.
  intros Hv.
  unfold actions_default, mbind, async_bind, await, console_log, mret,
    async_ret, fail.
  rewrite Hv. destruct (valid v); simpl.
  - split_and!; [done | done |]. intros out' r [= _ <-]. by right.
  - split_and!; [done | done |]. intros out' r [= _ <-]. by left.
Qed.

(** C6: the load function returns [{ form }] with the object that
    [superValidate] returned for the event and the schema, and it never
    returns a failure. *)
Theorem load_returns_form event out :
  (∀ v, superValidate event schema = Fulfilled v →
        load superValidate event out = (out, Fulfilled (Plain {| form := v |})))
  ∧ (∀ out' status d,
       load superValidate event out ≠ (out', Fulfilled (ActionFailure status d))).
Proof.
  unfold load, mbind, async_bind, await, mret, async_ret. split.
  - by intros v ->.
  - intros out' status d. by destruct (superValidate event schema).
Qed.

End Server.

Section ServerExamples.

Import Superforms PageServer.

Lemma actions_default_outcomes_witness :
  valid posted = false
  ∧ actions_default (answering posted) () []
    = ([(lit "POST", posted)],
       Fulfilled (ActionFailure 400 {| form := posted |})).
Proof.
  split; [reflexivity|].
  destruct (actions_default_outcomes (answering posted) () [] posted eq_refl)
    as (Hinvalid & _).
  exact (Hinvalid eq_refl).
Defined.

Lemma load_returns_form_witness :
  load (answering posted) () [] = ([], Fulfilled (Plain {| form := posted |})).
Proof.
  destruct (load_returns_form (answering posted) () []) as [Hload _].
  exact (Hload posted eq_refl).
Defined.

(** The action on a valid post. *)
Example actions_default_accepted :
  actions_default (answering accepted) () []
  = ([(lit "POST", accepted)], Fulfilled (Plain {| form := accepted |})).
Proof. reflexivity. Qed.

Example handlers_rejected_example :
  load (rejecting "no body") () [] = ([], Rejected "no body")
  ∧ actions_default (rejecting "no body") () [] = ([], Rejected "no body").
Proof. split; reflexivity. Qed.

End ServerExamples.

(** ** More on the script of Form.svelte: every schedule *)

Section Scheduler.

Import ClientValidation Debounce Interaction Samples.

Implicit Types (st : state) (sched : list event) (e : event).

Lemma step_empty_newTag e st :
  newTag st = lit "" →
  newTag (step e st) = lit "" ∧ tags (form (step e st)) = tags (form st).
Proof.
  intros Hempty. destruct e; simpl.
  - unfold addTag. by rewrite Hempty.
  - by destruct (microtasks st) as [|[] ?].
  - by destruct (timers st) as [|[? []] ?].
Qed.

Lemma run_empty_newTag sched : ∀ st,
  newTag st = lit "" →
  newTag (run sched st) = lit "" ∧ tags (form (run sched st)) = tags (form st).
Proof.
  induction sched as [|e sched IH]; intros st Hempty; [done|].
  rewrite run_cons. destruct (step_empty_newTag e st Hempty) as [Hnew Htags].
  destruct (IH _ Hnew) as [-> ->]. done.
Qed.

(** A step leaves [newTag] as it is or resets it. *)
Lemma step_newTag_cases e st :
  newTag (step e st) = newTag st ∨ newTag (step e st) = lit "".
Proof.
  destruct e; simpl.
  - left. apply addTag_newTag.
  - left. by destruct (microtasks st) as [|[] ?].
  - destruct (timers st) as [|[? []] ?]; [by left | by right].
Qed.

Lemma invocations_le_cons e sched :
  (invocations sched ≤ invocations (e :: sched))%nat.
Proof. rewrite invocations_cons. lia. Qed.

(** X3: once [newTag] is the empty string, whatever runs afterwards (calls
    of [addTag], continuations, timers) leaves [$form.tags] and [newTag] as
    they are. *)
Theorem empty_newTag_is_stable st sched :
  newTag st = lit "" →
  tags (form (run sched st)) = tags (form st)
  ∧ newTag (run sched st) = lit "".
Proof. intros Hempty. by destruct (run_empty_newTag sched st Hempty). Qed.

Lemma empty_newTag_is_stable_witness :
  let st := typed (lit "") [lit "ab"] in
  let sched := [Invoke; Microtask; Invoke; Timer; Invoke] in
  tags (form (run sched st)) = [lit "ab"] ∧ newTag (run sched st) = lit "".
Proof.
  intros st sched. apply (empty_newTag_is_stable st sched). reflexivity.
Defined.

(** X2: in every schedule, timers included, all that happens to
    [$form.tags] is that copies of the value [newTag] had at the start are
    appended, one per call of [addTag] at most; and [newTag] ends as that
    value or as the empty string. *)
Theorem run_appends_copies sched : ∀ st,
  ∃ k, (k ≤ invocations sched)%nat
       ∧ tags (form (run sched st)) = tags (form st) ++ replicate k (newTag st)
       ∧ (newTag (run sched st) = newTag st ∨ newTag (run sched st) = lit "").
Proof.
  induction sched as [|e sched IH]; intros st.
  - exists 0%nat. simpl. rewrite app_nil_r. auto.
  - rewrite run_cons.
    destruct (step_newTag_cases e st) as [Hkeep|Hreset].
    + destruct (IH (step e st)) as (k & Hk & Htags & Hnew).
      rewrite Htags, Hkeep, step_tags. rewrite Hkeep in Hnew.
      destruct (decide (e = Invoke)) as [->|Hne].
      * destruct (truthy (newTag st)).
        -- exists (S k). rewrite invocations_cons. simpl.
           split; [lia|]. split; [|done]. by rewrite <- (assoc_L (++)).
        -- exists k. rewrite app_nil_r. split; [|done].
           etrans; [exact Hk | apply invocations_le_cons].
      * exists k. rewrite app_nil_r. split; [|done].
        etrans; [exact Hk | apply invocations_le_cons].
    + destruct (run_empty_newTag sched _ Hreset) as [Hnew Htags].
      exists 0%nat. rewrite Htags, Hnew, step_tags. simpl. rewrite app_nil_r.
      split; [lia|]. split; [|by right].
      destruct (decide (e = Invoke)) as [->|]; [|by rewrite app_nil_r].
      simpl in Hreset. rewrite addTag_newTag in Hreset. rewrite Hreset.
      simpl. by rewrite app_nil_r.
Qed.

Lemma run_only_microtasks n : ∀ st,
  n = length (microtasks st) →
  microtasks (run (replicate n Microtask) st) = []
  ∧ timers (run (replicate n Microtask) st)
    = timers st ++ replicate n (1%nat, ResetNewTag)
  ∧ newTag (run (replicate n Microtask) st) = newTag st.
Proof.
  induction n as [|n IH]; intros st Hn.
  - simpl. rewrite app_nil_r. split; [|done].
    by destruct (microtasks st).
  - destruct st as [f er m c p nt ms ts]. simpl in Hn.
    destruct ms as [|[] ms]; [done|]. injection Hn as Hn.
    change (replicate (S n) Microtask) with (Microtask :: replicate n Microtask).
    rewrite run_cons. simpl.
    destruct (IH {| form := f; errors := er; message := m; constraints := c;
                    page := p; newTag := nt; microtasks := ms;
                    timers := ts ++ [(1%nat, ResetNewTag)] |} Hn)
      as (Hms & Hts & Hnt).
    unfold resume, setTimeout, with_timers, with_microtasks. simpl.
    rewrite Hms, Hts, Hnt. simpl. by rewrite <- (assoc_L (++)).
Qed.

Lemma run_only_timers n : ∀ st,
  n = length (timers st) →
  microtasks (run (replicate n Timer) st) = microtasks st
  ∧ timers (run (replicate n Timer) st) = []
  ∧ newTag (run (replicate n Timer) st)
    = (if decide (n = 0%nat) then newTag st else lit "").
Proof.
  induction n as [|n IH]; intros st Hn.
  - simpl. split; [done|]. split; [|done]. by destruct (timers st).
  - destruct st as [f er m c p nt ms ts]. simpl in Hn.
    destruct ts as [|[d []] ts]; [done|]. injection Hn as Hn.
    change (replicate (S n) Timer) with (Timer :: replicate n Timer).
    rewrite run_cons. simpl.
    destruct (IH {| form := f; errors := er; message := m; constraints := c;
                    page := p; newTag := lit ""; microtasks := ms;
                    timers := ts |} Hn)
      as (Hms & Hts & Hnt).
    unfold fire, with_newTag, with_timers. simpl.
    rewrite Hms, Hts, Hnt. simpl. by destruct (decide (n = 0%nat)).
Qed.

Lemma settle_state st :
  microtasks (settle st) = []
  ∧ timers (settle st) = []
  ∧ newTag (settle st)
    = (if decide (pending st = 0%nat) then newTag st else lit "").
Proof.
  unfold settle, pending.
  destruct (run_only_microtasks (length (microtasks st)) st eq_refl)
    as (Hms & Hts & Hnt).
  set (st1 := run (replicate (length (microtasks st)) Microtask) st) in *.
  destruct (run_only_timers (length (timers st1)) st1 eq_refl)
    as (Hms' & Hts' & Hnt').
  split_and!; [by rewrite Hms' | done |].
  rewrite Hnt', Hnt, Hts, length_app, length_replicate.
  repeat case_decide; first [done | lia].
Qed.

(** X1: once everything pending has run, no microtask and no timer is
    left, [$form.tags] is as before, and [newTag] is the empty string when
    anything was pending and unchanged when nothing was. *)
Theorem settle_quiesces st :
  microtasks (settle st) = []
  ∧ timers (settle st) = []
  ∧ tags (form (settle st)) = tags (form st)
  ∧ newTag (settle st)
    = (if decide (pending st = 0%nat) then newTag st else lit "").
Proof.
  destruct (settle_state st) as (Hms & Hts & Hnt).
  split_and!; [done | done | apply settle_tags | done].
Qed.

Lemma pending_step e st :
  e ≠ Timer →
  pending (step e st)
  = (pending st
     + (if decide (e = Invoke) then if truthy (newTag st) then 1 else 0 else 0))%nat.
Proof.
  intros He. unfold pending. destruct e; simpl; [| |done].
  - unfold addTag. destruct (truthy (newTag st)); simpl; [|lia].
    rewrite length_app. simpl. lia.
  - destruct (microtasks st) as [|[] ms] eqn:Hms; simpl; [rewrite Hms; simpl; lia|].
    rewrite length_app. simpl. lia.
Qed.

(** X4: while no timer fires, every call of [addTag] with a non-empty
    [newTag] leaves exactly one job pending (first the continuation of
    [await tick()], then its timer) and nothing else adds or drops one. *)
Theorem pending_jobs_rapid sched : ∀ st,
  rapid sched →
  pending (run sched st)
  = (pending st + (if truthy (newTag st) then invocations sched else 0))%nat.
Proof.
  unfold rapid. induction sched as [|e sched IH]; intros st Hr.
  - change (run [] st) with st. change (invocations []) with 0%nat.
    destruct (truthy (newTag st)); lia.
  - apply not_elem_of_cons in Hr as [He Hr].
    rewrite run_cons, IH, pending_step, step_newTag, invocations_cons by done.
    destruct (decide (e = Invoke)), (truthy (newTag st)); lia.
Qed.

Lemma pending_jobs_rapid_witness :
  let st := typed (lit "ab") [] in
  let sched := [Invoke; Microtask; Invoke] in
  rapid sched ∧ pending (run sched st) = 2%nat.
Proof.
  intros st sched.
  assert (Hr : rapid sched).
  { unfold rapid, sched. rewrite !not_elem_of_cons.
    split_and!; [discriminate..|apply not_elem_of_nil]. }
  split; [exact Hr|]. exact (pending_jobs_rapid sched st Hr).
Defined.

End Scheduler.

(** ** What [addTag] does at once and what it puts off *)

Section Deferred.

Import ClientValidation Debounce Interaction ResetTiming Samples.

Implicit Types (st : state) (sched : list event).

Lemma addTag_queues st :
  truthy (newTag st) = true →
  microtasks (addTag st) = microtasks st ++ [AddTagAfterTick]
  ∧ timers (addTag st) = timers st.
Proof. intros Hne. unfold addTag. by rewrite Hne. Qed.

Lemma resume_registers_timer st :
  timers (resume AddTagAfterTick st) = timers st ++ [(1%nat, ResetNewTag)]
  ∧ microtasks (resume AddTagAfterTick st) = microtasks st
  ∧ newTag (resume AddTagAfterTick st) = newTag st
  ∧ form (resume AddTagAfterTick st) = form st.
Proof. done. Qed.

Lemma fire_resets st :
  newTag (fire ResetNewTag st) = lit ""
  ∧ form (fire ResetNewTag st) = form st
  ∧ microtasks (fire ResetNewTag st) = microtasks st
  ∧ timers (fire ResetNewTag st) = timers st.
Proof. done. Qed.

Lemma run_rapid_pending sched : ∀ st,
  rapid sched →
  pending (run sched st)
  = (pending st + (if truthy (newTag st) then invocations sched else 0))%nat.
Proof.
  unfold rapid. induction sched as [|e sched IH]; intros st Hr.
  - change (run [] st) with st. change (invocations []) with 0%nat.
    destruct (truthy (newTag st)); lia.
  - apply not_elem_of_cons in Hr as [He Hr].
    rewrite run_cons, IH, pending_step, step_newTag, invocations_cons by done.
    destruct (decide (e = Invoke)), (truthy (newTag st)); lia.
Qed.

Lemma settle_resets st : pending st ≠ 0%nat → newTag (settle st) = lit "".
Proof.
  intros Hp. destruct (settle_state st) as (_ & _ & ->).
  by rewrite decide_False.
Qed.

Lemma addTag_pending st :
  truthy (newTag st) = true → pending (addTag st) ≠ 0%nat.
Proof.
  intros Hne. unfold pending.
  destruct (addTag_queues st Hne) as [-> _]. rewrite length_app. simpl. lia.
Qed.

(** C3, as the code has it: [addTag] is not debounced.  Each call with a
    non-empty [newTag] appends to [$form.tags] at once, so after any rapid
    sequence of calls the list holds one more copy of [newTag] per call.
    Only the reset of [newTag] is put off: the call leaves [newTag] as it
    is and queues the rest of the function behind [await tick()]; that
    rest registers a timer of 1 ms and changes nothing; the callback of the
    timer sets [newTag] to the empty string.  So no call of a rapid
    sequence sees the reset, and once everything pending has run after at
    least one call, [newTag] is empty and the tags are still the ones the
    calls appended. *)
Theorem addTag_applies_each_invocation st sched :
  rapid sched →
  newTag st ≠ lit "" →
  tags (form (addTag st)) = tags (form st) ++ [newTag st]
  ∧ tags (form (run sched st))
    = tags (form st) ++ replicate (invocations sched) (newTag st)
  ∧ newTag (run sched st) = newTag st
  ∧ (newTag (addTag st) = newTag st
     ∧ microtasks (addTag st) = microtasks st ++ [AddTagAfterTick]
     ∧ timers (addTag st) = timers st)
  ∧ (∀ st', timers (resume AddTagAfterTick st')
            = timers st' ++ [(1%nat, ResetNewTag)]
            ∧ newTag (resume AddTagAfterTick st') = newTag st'
            ∧ form (resume AddTagAfterTick st') = form st')
  ∧ (∀ st', newTag (fire ResetNewTag st') = lit ""
            ∧ form (fire ResetNewTag st') = form st')
  ∧ ((0 < invocations sched)%nat → newTag (settle (run sched st)) = lit "")
  ∧ tags (form (settle (run sched st)))
    = tags (form st) ++ replicate (invocations sched) (newTag st).
Proof.
  intros Hr Hne%truthy_nonempty.
  destruct (run_rapid sched st Hr) as [Hnew Htags]. rewrite Hne in Htags.
  destruct (addTag_queues st Hne) as [Hms Hts].
  split_and!.
  - by rewrite addTag_tags, Hne.
  - done.
  - done.
  - apply addTag_newTag.
  - done.
  - done.
  - intros st'. by destruct (resume_registers_timer st') as (? & _ & ? & ?).
  - intros st'. by destruct (fire_resets st') as (? & ? & _).
  - intros Hcalls. apply settle_resets.
    rewrite run_rapid_pending, Hne by done. lia.
  - by rewrite settle_tags.
Qed.

Lemma addTag_applies_each_invocation_witness :
  let st := typed (lit "ab") [] in
  let sched := [Invoke; Microtask; Invoke; Microtask; Invoke] in
  rapid sched
  ∧ newTag st ≠ lit ""
  ∧ tags (form (run sched st)) = [lit "ab"; lit "ab"; lit "ab"]
  ∧ newTag (run sched st) = lit "ab"
  ∧ newTag (settle (run sched st)) = lit "".
Proof.
  intros st sched.
  assert (Hr : rapid sched).
  { unfold rapid, sched. rewrite !not_elem_of_cons.
    split_and!; [discriminate..|apply not_elem_of_nil]. }
  assert (Hne : newTag st ≠ lit "") by discriminate.
  split; [exact Hr|]. split; [exact Hne|].
  destruct (addTag_applies_each_invocation st sched Hr Hne)
    as (_ & Htags & Hnew & _ & _ & _ & Hreset & _).
  split; [exact Htags|]. split; [exact Hnew|].
  apply Hreset. vm_compute. lia.
Defined.

(** C9, as the code has it: a call of [addTag] with a non-empty [newTag]
    appends the tag at once and leaves [newTag] as it is.  The deferred
    continuation, the code after [await tick()], only registers a timer of
    1 ms: it does not reset [newTag], and neither does anything else that
    runs before a timer fires.  The callback of the timer sets [newTag] to
    the empty string, so [newTag] is empty once everything pending has run.
    The appended tag is in [$form.tags] at every point after the call, so
    the reset comes only after the append.  This holds from every state;
    from one with nothing pending the three steps are spelled out. *)
Theorem addTag_reset_after_append st :
  newTag st ≠ lit "" →
  (tags (form (addTag st)) = tags (form st) ++ [newTag st]
   ∧ newTag (addTag st) = newTag st
   ∧ microtasks (addTag st) = microtasks st ++ [AddTagAfterTick]
   ∧ timers (addTag st) = timers st)
  ∧ (∀ st', timers (resume AddTagAfterTick st')
            = timers st' ++ [(1%nat, ResetNewTag)]
            ∧ newTag (resume AddTagAfterTick st') = newTag st'
            ∧ form (resume AddTagAfterTick st') = form st')
  ∧ (∀ st', newTag (fire ResetNewTag st') = lit ""
            ∧ form (fire ResetNewTag st') = form st')
  ∧ (∀ sched, rapid sched → newTag (run (Invoke :: sched) st) = newTag st)
  ∧ (newTag (settle (addTag st)) = lit ""
     ∧ tags (form (settle (addTag st))) = tags (form st) ++ [newTag st]
     ∧ microtasks (settle (addTag st)) = []
     ∧ timers (settle (addTag st)) = [])
  ∧ (∀ sched, (tags (form st) ++ [newTag st])
              `prefix_of` tags (form (run (Invoke :: sched) st)))
  ∧ (microtasks st = [] →
     timers st = [] →
     let s1 := step Invoke st in
     let s2 := step Microtask s1 in
     let s3 := step Timer s2 in
     (tags (form s1) = tags (form st) ++ [newTag st] ∧ newTag s1 = newTag st)
     ∧ (tags (form s2) = tags (form s1) ∧ newTag s2 = newTag st
        ∧ timers s2 = [(1%nat, ResetNewTag)])
     ∧ (tags (form s3) = tags (form s1) ∧ newTag s3 = lit ""
        ∧ microtasks s3 = [] ∧ timers s3 = [])
     ∧ settle (addTag st) = s3).
Proof.
  intros Hne%truthy_nonempty.
  assert (Htags : tags (form (addTag st)) = tags (form st) ++ [newTag st])
    by (by rewrite addTag_tags, Hne).
  destruct (addTag_queues st Hne) as [Hms Hts].
  destruct (settle_state (addTag st)) as (Hsms & Hsts & _).
  split_and!.
  - done.
  - apply addTag_newTag.
  - done.
  - done.
  - intros st'. by destruct (resume_registers_timer st') as (? & _ & ? & ?).
  - intros st'. by destruct (fire_resets st') as (? & ? & _).
  - intros sched Hr. rewrite run_cons. simpl.
    destruct (run_rapid sched (addTag st) Hr) as [-> _]. apply addTag_newTag.
  - by apply settle_resets, addTag_pending.
  - by rewrite settle_tags.
  - done.
  - done.
  - intros sched. rewrite run_cons. simpl. rewrite <- Htags.
    apply run_tags_prefix.
  - intros Hm Ht. clear Htags Hms Hts Hsms Hsts.
    destruct st as [f e m c p [|u n] ms ts]; simpl in Hne, Hm, Ht;
      [discriminate|]; subst ms ts. simpl. by split_and!.
Qed.

Lemma addTag_reset_after_append_witness :
  let st := typed (lit "cd") [lit "ab"] in
  newTag (run [Invoke; Microtask] st) = lit "cd"
  ∧ newTag (settle (addTag st)) = lit ""
  ∧ tags (form (addTag st)) = [lit "ab"; lit "cd"].
Proof.
  intros st.
  destruct (addTag_reset_after_append st) as
    ((Happ & _) & _ & _ & Hkeep & (Hreset & _) & _); [discriminate|].
  split; [|split; [exact Hreset | exact Happ]].
  apply (Hkeep [Microtask]).
  unfold rapid. rewrite !not_elem_of_cons.
  split; [discriminate | apply not_elem_of_nil].
Defined.

(** C9, as the spec words it, fails: with "cd" typed and nothing pending,
    after the call and its deferred continuation the microtask queue is
    empty and [newTag] is still "cd"; the reset waits in the timer. *)
Lemma addTag_continuation_keeps_newTag :
  let st := typed (lit "cd") [lit "ab"] in
  microtasks (run [Invoke; Microtask] st) = []
  ∧ timers (run [Invoke; Microtask] st) = [(1%nat, ResetNewTag)]
  ∧ newTag (run [Invoke; Microtask] st) = lit "cd"
  ∧ ¬ reset_by_continuation st.
Proof.
  intros st. split_and!; [reflexivity..|].
  intros Hreset. vm_compute in Hreset. discriminate.
Qed.

End Deferred.

(** ** More on the markup of Form.svelte *)

Section TagFormMarkup.

Import ClientValidation Interaction Query Samples.

Implicit Types (st : state) (tag v : js_string) (e : form_errors).

Lemma mjoin_imap_bind {A B D} (g : B → list D) (l : list A) :
  ∀ (f : nat → A → list B) (h : nat → A → list D),
    (∀ i x, f i x ≫= g = h i x) →
    mjoin (imap f l) ≫= g = mjoin (imap h l).
Proof.
  induction l as [|x l IH]; intros f h Hfh; [done|].
  simpl. rewrite bind_app, Hfh. f_equal. apply IH. intros i y. apply Hfh.
Qed.

Lemma mjoin_imap_singleton {A B} (l : list A) :
  ∀ (h : nat → A → B), mjoin (imap (fun i x => [h i x]) l) = imap h l.
Proof.
  induction l as [|x l IH]; intros h; [done|].
  simpl. f_equal. apply (IH (h ∘ S)).
Qed.

Lemma mjoin_imap_count {A B} (P : B → bool) (l : list A) :
  ∀ (f : nat → A → list B),
    (∀ i x, length (filter P (f i x)) = 1%nat) →
    length (filter P (mjoin (imap f l))) = length l.
Proof.
  induction l as [|x l IH]; intros f Hf; [done|].
  simpl. rewrite filter_app, length_app, Hf. f_equal.
  apply IH. intros i y. apply Hf.
Qed.

Lemma tag_block_deep_bindings e i tag :
  tag_block e i tag ≫= deep_bindings = [(FormItem "tags" i, tag)].
Proof. unfold tag_block. by destruct (errors_at e i). Qed.

Lemma tag_block_inputs e i tag :
  length (filter is_input (tag_block e i tag)) = 1%nat.
Proof. unfold tag_block. by destruct (errors_at e i). Qed.

Lemma tag_block_error_text e i tag :
  tag_block e i tag ≫= error_text
  = from_option (fun err => [array_to_string err]) [] (errors_at e i).
Proof. unfold tag_block. by destruct (errors_at e i). Qed.

Lemma tag_blocks_deep_bindings st :
  mjoin (tag_blocks st) ≫= deep_bindings
  = imap (fun i tag => (FormItem "tags" i, tag)) (tags (form st)).
Proof.
  unfold tag_blocks.
  rewrite <- (mjoin_imap_singleton _ (fun i tag => (FormItem "tags" i, tag))).
  apply mjoin_imap_bind. intros i tag. apply tag_block_deep_bindings.
Qed.

(** X8: over the whole markup of the component, the form with everything
    inside it, the two-way bindings are, in this order, one per tag, bound
    to [$form.tags[i]] and showing the tag at [i], and then the one of the
    input for a new tag, bound to [newTag].  Nothing else is bound: not the
    message banner, the input that hands the focus back, or the submit
    button. *)
Theorem form_bindings st :
  render st ≫= deep_bindings
  = imap (fun i tag => (FormItem "tags" i, tag)) (tags (form st))
    ++ [(Local "newTag", newTag st)].
Proof.
  unfold render. cbn [mbind list_bind deep_bindings bindings omap list_omap].
  rewrite !app_nil_r. cbn [app].
  repeat first [rewrite bind_app | rewrite bind_cons].
  rewrite tag_blocks_deep_bindings.
  by destruct (truthy_opt (message st)), (truthy (newTag st)).
Qed.

(** X9: the form shows one input per tag and the input for a new tag, and
    the second input for a new tag, the one that hands the focus back,
    exactly while [newTag] is not empty. *)
Theorem form_inputs_count st :
  length (filter is_input (form_children (render st)))
  = (length (tags (form st)) + 1 + (if truthy (newTag st) then 1 else 0))%nat.
Proof.
  assert (Hloop : length (filter is_input (mjoin (tag_blocks st)))
                  = length (tags (form st)))
    by (unfold tag_blocks; apply mjoin_imap_count, tag_block_inputs).
  unfold render, form_children. simpl. rewrite app_nil_r.
  destruct (truthy_opt (message st)), (truthy (newTag st)); simpl;
    rewrite ?filter_cons; simpl; rewrite filter_app, length_app, Hloop;
    rewrite ?filter_cons, ?filter_nil; simpl; lia.
Qed.

(** X7: taken together, the error texts of the each loop are the errors of
    the indices of [$form.tags], in the order of the tags, each index with
    an error giving one text. *)
Theorem each_error_texts st :
  mjoin (tag_blocks st) ≫= error_text
  = mjoin (imap (fun i _ =>
                   from_option (fun err => [array_to_string err]) []
                     (errors_at (errors st) i))
             (tags (form st))).
Proof.
  unfold tag_blocks. apply mjoin_imap_bind.
  intros i tag. apply tag_block_error_text.
Qed.

(** X6: an error stored at an index where [$form.tags] has no tag is never
    rendered: two error objects that agree on the indices of the tags give
    the same markup. *)
Theorem stale_errors_not_rendered st e :
  (∀ i, (i < length (tags (form st)))%nat →
        errors_at e i = errors_at (errors st) i) →
  render (with_errors e st) = render st.
Proof.
  intros Hagree.
  assert (Hblocks : tag_blocks (with_errors e st) = tag_blocks st).
  { unfold tag_blocks. simpl. apply imap_ext. intros i tag Hi.
    unfold tag_block. by rewrite Hagree by (by eapply lookup_lt_Some). }
  unfold render. by rewrite Hblocks.
Qed.

Lemma stale_errors_not_rendered_witness :
  render (with_errors
            {| tags_errors := Some {[ 7%nat := [lit "Tag must be at least 2 characters"] ]} |}
            (typed (lit "") [lit "ab"; lit "cd"]))
  = render (typed (lit "") [lit "ab"; lit "cd"]).
Proof.
  apply (stale_errors_not_rendered (typed (lit "") [lit "ab"; lit "cd"])).
  intros i Hi. unfold errors_at. simpl in *.
  apply lookup_singleton_ne. lia.
Defined.

End TagFormMarkup.

(** ** Typing in the tag form *)

Section Typing.

Import ClientValidation Interaction Query Samples.

Implicit Types (st : state) (tag v : js_string) (target : lvalue).

(** X5: [addTag] does not ask the validator: a non-empty [newTag] of one
    code unit is appended although [validators.tags] answers it with the
    error message. *)
Theorem addTag_skips_validators st :
  newTag st ≠ lit "" →
  (length (newTag st) < 2)%nat →
  (fun f => f (newTag st)) <$> validators !! "tags"
  = Some (Some (lit "Tag must be at least 2 characters"))
  ∧ tags (form (addTag st)) = tags (form st) ++ [newTag st].
Proof.
  intros Hne%truthy_nonempty Hshort. split.
  - unfold validators. rewrite lookup_singleton_eq. simpl.
    by destruct (Nat.ltb_spec (length (newTag st)) 2); [|lia].
  - by rewrite addTag_tags, Hne.
Qed.

Lemma addTag_skips_validators_witness :
  let st := typed (lit "a") [lit "ab"] in
  (fun f => f (newTag st)) <$> validators !! "tags"
  = Some (Some (lit "Tag must be at least 2 characters"))
  ∧ tags (form (addTag st)) = [lit "ab"; lit "a"].
Proof.
  intros st. apply (addTag_skips_validators st); [discriminate | simpl; lia].
Defined.

(** X11: a user who types a non-empty [v] for a new tag and commits it,
    with nothing pending, gets [v] appended once; when everything pending
    has run the input is empty again, nothing is pending, and a further
    change event adds nothing. *)
Theorem type_and_commit st v :
  pending st = 0%nat →
  v ≠ lit "" →
  ∃ st1,
    input_event (Local "newTag") v st = Some st1
    ∧ tags (form (settle (step Invoke st1))) = tags (form st) ++ [v]
    ∧ newTag (settle (step Invoke st1)) = lit ""
    ∧ pending (settle (step Invoke st1)) = 0%nat
    ∧ step Invoke (settle (step Invoke st1)) = settle (step Invoke st1).
Proof.
  intros Hidle Hv%truthy_nonempty. eexists. split; [reflexivity|].
  set (st1 := with_newTag v st).
  assert (Hpending : pending (step Invoke st1) ≠ 0%nat).
  { unfold pending. simpl. unfold addTag. simpl. rewrite Hv. simpl.
    rewrite length_app. simpl. lia. }
  destruct (settle_state (step Invoke st1)) as (Hms & Hts & Hnt).
  rewrite decide_False in Hnt by done.
  split_and!.
  - rewrite settle_tags. simpl. rewrite addTag_tags. simpl. by rewrite Hv.
  - done.
  - unfold pending. by rewrite Hms, Hts.
  - set (st2 := settle (step Invoke st1)) in *.
    change (addTag st2 = st2). unfold addTag. by rewrite Hnt.
Qed.

Lemma type_and_commit_witness :
  ∃ st1,
    input_event (Local "newTag") (lit "cd") (typed (lit "") [lit "ab"]) = Some st1
    ∧ tags (form (settle (step Invoke st1))) = [lit "ab"; lit "cd"]
    ∧ newTag (settle (step Invoke st1)) = lit "".
Proof.
  destruct (type_and_commit (typed (lit "") [lit "ab"]) (lit "cd"))
    as (st1 & Hev & Htags & Hnew & _); [reflexivity | discriminate |].
  exists st1. split; [exact Hev|]. split; [exact Htags | exact Hnew].
Defined.

End Typing.

(** ** More on the tutorial page and its handlers *)

Section Tutorial.

Import Superforms Query Samples.

(** X13: the sample shows, below the two inputs, the errors of [name] and
    then those of [email], and nothing for a field without errors; an
    input carries [data-invalid] exactly when its field has errors. *)
Theorem page_sample_errors (st : PageSvelte.state) :
  form_children (PageSvelte.render st) ≫= error_text
  = from_option (fun err => [array_to_string err]) []
      (errors_name (PageSvelte.errors st))
    ++ from_option (fun err => [array_to_string err]) []
         (errors_email (PageSvelte.errors st))
  ∧ marked_invalid <$> filter is_input (form_children (PageSvelte.render st))
    = [bool_decide (is_Some (errors_name (PageSvelte.errors st)));
       bool_decide (is_Some (errors_email (PageSvelte.errors st)))]
  ∧ form_children (PageSvelte.render st) ≫= bindings
    = [(FormField "name", name (PageSvelte.form st));
       (FormField "email", email (PageSvelte.form st))].
Proof.
  destruct st as [f [en ee] c]. unfold PageSvelte.render, form_children.
  simpl. destruct en, ee; by vm_compute.
Qed.

End Tutorial.

Section HandlersTogether.

Import Superforms PageServer.

Context {RequestEvent E : Type}.
Variable superValidate : RequestEvent → zod → settled E Validation.

(** X14: for the same event the default action settles as [load] does: it
    is rejected with the same reason, or it returns the same [{ form }],
    inside [fail(400, ...)] exactly when [form.valid] is false.  [load]
    never writes to the console; the action keeps what was written and adds
    one entry exactly when [superValidate] returned. *)
Theorem action_follows_load (event : RequestEvent) (out : list log_entry) :
  match (load superValidate event out).2,
        (actions_default superValidate event out).2 with
  | Fulfilled (Plain d), Fulfilled r =>
      r = (if valid (form d) then Plain d else ActionFailure 400 d)
  | Rejected reason, Rejected reason' => reason = reason'
  | _, _ => False
  end
  ∧ (load superValidate event out).1 = out
  ∧ (actions_default superValidate event out).1
    = out ++ match superValidate event schema with
             | Fulfilled v => [(lit "POST", v)]
             | Rejected _ => []
             end.
Proof.
  unfold load, actions_default, mbind, async_bind, await, console_log, mret,
    async_ret, fail.
  destruct (superValidate event schema) as [v|reason]; simpl.
  - by destruct (valid v).
  - by rewrite app_nil_r.
Qed.

End HandlersTogether.
